(** * Covey.Town frontend: area controllers and the viewing-area video glue

    A shallow embedding of
      - [ConversationAreaController.ts]  (class [ConversationAreaController]),
      - [ViewingAreaController.ts]       (class [ViewingAreaController]),
      - [ViewingAreaVideo] in the viewing-area component (handler [updateTimecode]),
    and the properties of their change detection and event emission.

    How the JavaScript is read:
      - objects the code compares by reference (the [PlayerController[]]
        arrays, the [PlayerController] objects) have explicit references, and
        the arrays live in a heap, so that two names for one array alias;
      - effects (heap reads and writes, [emit], [throw]) are threaded through
        the monad [Js]; a controller is passed as a value through its methods;
      - [EventEmitter] is Node's: [emit] calls the listeners of the event
        synchronously, in registration order.  A listener is an opaque
        callback that returns; the log keeps every call made to it;
      - the numbers the code computes with (the video handler's times) are IEEE
        binary64, Rocq's primitive [float], with [+], [-] and [<] as the
        machine rounds and compares them; the elapsed time that the viewing
        area controller only carries is kept as a rational. *)

From Stdlib Require Import QArith Qabs Lqa Floats.
From stdpp Require Import base option list gmap strings.

Close Scope Q_scope.

(** ** The JavaScript run-time the controllers live in *)

(** A [PlayerController] object.  The controllers only read its [id] and
    compare it by reference ([Set.prototype.has]); [player_ref] is the identity
    of the object, so two distinct objects may carry the same [player_id]. *)
Record PlayerController := mkPlayer {
  player_ref : positive;
  player_id : string
}.

#[global] Instance PlayerController_eq_dec : EqDecision PlayerController.
Proof. solve_decision. Defined.

#[global] Instance PlayerController_countable : Countable PlayerController :=
  inj_countable'
    (λ p, (player_ref p, player_id p))
    (λ t, mkPlayer t.1 t.2)
    (λ p, match p with mkPlayer _ _ => eq_refl end).

(** A reference to a [PlayerController[]] array object. *)
Definition ArrayRef := positive.

(** A subscriber: a callback registered with [addListener].  What a callback
    does when it is called is outside the controllers; the model records that
    it was called, and with which payload. *)
Definition Listener := nat.

(** The events of [ConversationAreaEvents] and [ViewingAreaEvents], each with
    the payload its listeners receive. *)
Inductive Event :=
  | topicChange (newTopic : option string)
  | occupantsChange (newOccupants : ArrayRef)
  | playbackChange (isPlaying : bool)
  | progressChange (elapsedTimeSec : Q)
  | videoChange (video : option string).

Definition event_name (ev : Event) : string :=
  match ev with
  | topicChange _ => "topicChange"
  | occupantsChange _ => "occupantsChange"
  | playbackChange _ => "playbackChange"
  | progressChange _ => "progressChange"
  | videoChange _ => "videoChange"
  end.

(** What an observer of a run sees, in order: each [emit] call, followed by the
    calls it makes to the listeners. *)
Inductive LogEntry :=
  | Emit (ev : Event)
  | Call (listener : Listener) (ev : Event).

(** The part of the JavaScript world the controllers touch: the heap of
    [PlayerController[]] arrays and the log of emissions. *)
Record World := mkWorld {
  arrays : gmap ArrayRef (list PlayerController);
  log : list LogEntry
}.

Inductive JsError :=
  | Error (message : string)
  | TypeError (message : string).

(** How a JavaScript call ends: it returns a value or it throws. *)
Inductive Completion (A : Type) :=
  | Normal (a : A)
  | Throw (e : JsError).
Arguments Normal {A} a.
Arguments Throw {A} e.

(** A computation reads and changes the world and ends in a completion; what it
    did to the world before throwing stays done. *)
Definition Js (A : Type) : Type := World → Completion A * World.

#[global] Instance Js_ret : MRet Js := λ A a w, (Normal a, w).

#[global] Instance Js_bind : MBind Js := λ A B k m w,
  match m w with
  | (Normal a, w') => k a w'
  | (Throw e, w') => (Throw e, w')
  end.

Definition throw {A : Type} (e : JsError) : Js A := λ w, (Throw e, w).

(** [[]] and array literals: a new array object at a reference not in use. *)
Definition new_array (elems : list PlayerController) : Js ArrayRef := λ w,
  let r := fresh (dom (arrays w)) in
  (Normal r, mkWorld (<[r := elems]> (arrays w)) (log w)).

(** Reading the elements of an array ([for ... of], [new Set(array)], [map]).
    A reference that denotes no array is what TypeScript's types exclude; at
    run time reading a property of it is a [TypeError]. *)
Definition read_array (r : ArrayRef) : Js (list PlayerController) := λ w,
  match arrays w !! r with
  | Some elems => (Normal elems, w)
  | None => (Throw (TypeError "Cannot read properties of undefined"), w)
  end.

(** [array.length] *)
Definition array_length (r : ArrayRef) : Js nat :=
  elems ← read_array r; mret (length elems).

Definition write_log (entries : list LogEntry) : Js unit := λ w,
  (Normal (), mkWorld (arrays w) (log w ++ entries)).

(** ** Node's [EventEmitter], the base class of both controllers *)
Module EventEmitter.

(** The registrations, oldest first. *)
Record t := mk { registered : list (string * Listener) }.

(** [super()] *)
Definition new : t := mk [].

(** [listeners(eventName)]: the callbacks registered for the event, in the
    order they were registered. *)
Definition listeners (eventName : string) (e : t) : list Listener :=
  (filter (λ r, r.1 = eventName) (registered e)).*2.

(** [addListener(eventName, listener)] adds the listener at the end. *)
Definition addListener (eventName : string) (listener : Listener) (e : t) : t :=
  mk (registered e ++ [(eventName, listener)]).

(** [emit(eventName, payload)]: synchronously calls each listener registered
    for the event, in registration order, with the payload. *)
Definition emit (ev : Event) (e : t) : Js unit :=
  write_log (Emit ev :: ((λ l, Call l ev) <$> listeners (event_name ev) e)).

(** [removeListener(eventName, listener)] removes the most recently added
    registration of the listener for the event, when there is one. *)
Fixpoint remove_first (r : string * Listener) (regs : list (string * Listener))
    : list (string * Listener) :=
  match regs with
  | [] => []
  | r' :: rest => if decide (r' = r) then rest else r' :: remove_first r rest
  end.

Definition removeListener (eventName : string) (listener : Listener) (e : t) : t :=
  mk (reverse (remove_first (eventName, listener) (reverse (registered e)))).

End EventEmitter.

(** ** ConversationAreaController.ts *)

(** The wire shape [ConversationArea] of CoveyTownSocket. *)
Record ConversationAreaModel := mkConversationAreaModel {
  area_id : string;
  area_topic : option string;
  occupantsByID : list string
}.

Module ConversationAreaController.

Record t := mk {
  emitter : EventEmitter.t;
  _id : string;
  _topic : option string;
  _occupants : ArrayRef
}.

Definition with_topic (newTopic : option string) (this : t) : t :=
  mk (emitter this) (_id this) newTopic (_occupants this).

Definition with_occupants (newOccupants : ArrayRef) (this : t) : t :=
  mk (emitter this) (_id this) (_topic this) newOccupants.

Definition addListener (eventName : string) (listener : Listener) (this : t) : t :=
  mk (EventEmitter.addListener eventName listener (emitter this))
     (_id this) (_topic this) (_occupants this).

(** [constructor(id, topic?)]: [this._occupants = []] allocates the
    controller's own empty array. *)
Definition new (id : string) (topic : option string) : Js t :=
  occupants ← new_array [];
  mret (mk EventEmitter.new id topic occupants).

(** [get id()] *)
Definition get_id (this : t) : Js string := mret (_id this).

(** [get occupants()] *)
Definition get_occupants (this : t) : Js ArrayRef := mret (_occupants this).

(** [get topic()] *)
Definition get_topic (this : t) : Js (option string) := mret (_topic this).

(** The loop of [_isSameOccupantsList]:
    [for (const player of newOccupants) if (!occupantsSet.has(player)) return false;]
    followed by [return true]. *)
Fixpoint every_has (occupantsSet : gset PlayerController)
    (newOccupants : list PlayerController) : bool :=
  match newOccupants with
  | [] => true
  | player :: rest =>
      if bool_decide (player ∈ occupantsSet) then every_has occupantsSet rest
      else false
  end.

(** [private _isSameOccupantsList(newOccupants)] *)
Definition _isSameOccupantsList (this : t) (newOccupants : ArrayRef) : Js bool :=
  occupants ← get_occupants this;
  oldLength ← array_length occupants;
  newLength ← array_length newOccupants;
  if bool_decide (oldLength = newLength) then
    occupants ← get_occupants this;
    elems ← read_array occupants;
    let occupantsSet : gset PlayerController := list_to_set elems in
    players ← read_array newOccupants;
    mret (every_has occupantsSet players)
  else mret false.

(** [set occupants(newOccupants)] *)
Definition set_occupants (newOccupants : ArrayRef) (this : t) : Js t :=
  same ← _isSameOccupantsList this newOccupants;
  if negb same then
    let this' := with_occupants newOccupants this in
    _ ← EventEmitter.emit (occupantsChange (_occupants this')) (emitter this');
    mret this'
  else mret this.

(** [set topic(newTopic)]: [!==] on [string | undefined] is equality of the
    values. *)
Definition set_topic (newTopic : option string) (this : t) : Js t :=
  if bool_decide (_topic this ≠ newTopic) then
    let this' := with_topic newTopic this in
    _ ← EventEmitter.emit (topicChange (_topic this')) (emitter this');
    mret this'
  else mret this.

(** [isEmpty()]: [||] reads the length only when the topic is defined. *)
Definition isEmpty (this : t) : Js bool :=
  if bool_decide (_topic this = None) then mret true
  else
    n ← array_length (_occupants this);
    mret (bool_decide (n = 0)).

(** [toConversationAreaModel()] *)
Definition toConversationAreaModel (this : t) : Js ConversationAreaModel :=
  occupants ← read_array (_occupants this);
  let occupantsByID := player_id <$> occupants in
  mret (mkConversationAreaModel (_id this) (_topic this) occupantsByID).

(** [static fromConversationAreaModel(convAreaModel, playerFinder)] *)
Definition fromConversationAreaModel (convAreaModel : ConversationAreaModel)
    (playerFinder : list string → Js ArrayRef) : Js t :=
  ret ← new (area_id convAreaModel) (area_topic convAreaModel);
  found ← playerFinder (occupantsByID convAreaModel);
  set_occupants found ret.

Definition removeListener (eventName : string) (listener : Listener) (this : t) : t :=
  mk (EventEmitter.removeListener eventName listener (emitter this))
     (_id this) (_topic this) (_occupants this).

End ConversationAreaController.

(** ** ViewingAreaController.ts *)

(** The wire shape [ViewingArea] of CoveyTownSocket.  The controller computes
    nothing with [elapsedTimeSec]; it is kept as a rational. *)
Record ViewingAreaModel := mkViewingAreaModel {
  viewing_id : string;
  isPlaying : bool;
  elapsedTimeSec : Q;
  video : option string
}.

Module ViewingAreaController.

(** The class declares no field of its own: a controller is its emitter. *)
Record t := mk { emitter : EventEmitter.t }.

(** [throw new Error('Unimplemented: Task 2 ViewingAreaController')] *)
Definition Unimplemented : JsError :=
  Error "Unimplemented: Task 2 ViewingAreaController".

(** [constructor(viewingAreaModel)]: [super()] and nothing else. *)
Definition new (viewingAreaModel : ViewingAreaModel) : Js t :=
  mret (mk EventEmitter.new).

(** [get id()] *)
Definition get_id (this : t) : Js string := throw Unimplemented.

(** [get video()] *)
Definition get_video (this : t) : Js (option string) := throw Unimplemented.

(** [set video(video)] *)
Definition set_video (video : option string) (this : t) : Js t :=
  throw Unimplemented.

(** [get elapsedTimeSec()] *)
Definition get_elapsedTimeSec (this : t) : Js Q := throw Unimplemented.

(** [set elapsedTimeSec(elapsedTimeSec)] *)
Definition set_elapsedTimeSec (elapsedTimeSec : Q) (this : t) : Js t :=
  throw Unimplemented.

(** [get isPlaying()] *)
Definition get_isPlaying (this : t) : Js bool := throw Unimplemented.

(** [set isPlaying(isPlaying)] *)
Definition set_isPlaying (isPlaying : bool) (this : t) : Js t :=
  throw Unimplemented.

(** [viewingAreaModel()] *)
Definition viewingAreaModel (this : t) : Js ViewingAreaModel :=
  throw Unimplemented.

(** [updateFrom(updatedModel)]: three assignments through the setters. *)
Definition updateFrom (updatedModel : ViewingAreaModel) (this : t) : Js t :=
  this ← set_isPlaying (isPlaying updatedModel) this;
  this ← set_elapsedTimeSec (elapsedTimeSec updatedModel) this;
  set_video (video updatedModel) this.

End ViewingAreaController.

(** ** ViewingAreaVideo: the [progressChange] handler *)
Module ViewingAreaVideo.

Definition ALLOWED_DRIFT : float := 3%float.

(** The embedded [ReactPlayer] as the handler sees it: the playback position
    it reports and the [seekTo] calls it has received. *)
Record ReactPlayer := mkReactPlayer {
  currentTime : float;
  seekCalls : list (float * string)
}.

Definition getCurrentTime (player : ReactPlayer) : float := currentTime player.

Definition seekTo (amount : float) (type : string) (player : ReactPlayer)
    : ReactPlayer :=
  mkReactPlayer (currentTime player) (seekCalls player ++ [(amount, type)]).

(** [updateTimecode(newTime)], on [reactPlayerRef.current] ([None] is [null]:
    the player is not mounted).  [newTime > a] is [a < newTime]; the sum and
    the difference are rounded to binary64 before they are compared. *)
Definition updateTimecode (current : option ReactPlayer) (newTime : float)
    : option ReactPlayer :=
  match current with
  | Some player =>
      if (getCurrentTime player + ALLOWED_DRIFT <? newTime)%float then
        Some (seekTo newTime "seconds" player)
      else if (newTime <? getCurrentTime player - ALLOWED_DRIFT)%float then
        Some (seekTo newTime "seconds" player)
      else Some player
  | None => None
  end.

End ViewingAreaVideo.

(** ** Code that uses a controller *)
Module Client.
Import ConversationAreaController.

(** [array.push(...)], [array.pop()], an array literal: the array at [r] now
    holds [elems]. *)
Definition write_array (r : ArrayRef) (elems : list PlayerController) : Js unit :=
  λ w, (Normal (), mkWorld (<[r := elems]> (arrays w)) (log w)).

(** What code holding a controller does to it and to the arrays it passes:
    it assigns [topic], assigns [occupants], or changes an array in place. *)
Inductive Step :=
  | AssignTopic (newTopic : option string)
  | AssignOccupants (newOccupants : ArrayRef)
  | WriteArray (r : ArrayRef) (elems : list PlayerController).

Definition step (s : Step) (this : t) : Js t :=
  match s with
  | AssignTopic newTopic => set_topic newTopic this
  | AssignOccupants newOccupants => set_occupants newOccupants this
  | WriteArray r elems => _ ← write_array r elems; mret this
  end.

Fixpoint run (steps : list Step) (this : t) : Js t :=
  match steps with
  | [] => mret this
  | s :: rest => this' ← step s this; run rest this'
  end.

End Client.

(** ** The hooks of ConversationAreaController.ts *)

(** Truthiness of a [string | undefined]: [undefined] and the empty string are
    falsy. *)
Definition truthy (s : option string) : bool :=
  match s with
  | Some s => negb (bool_decide (s = ""))
  | None => false
  end.

Module ConversationAreaHooks.
Import ConversationAreaController.

Definition NO_TOPIC_STRING : string := "(No topic)".

(** [topic ? topic : NO_TOPIC_STRING] on a value already read. *)
Definition topic_or_no_topic (topic : option string) : string :=
  if truthy topic then default NO_TOPIC_STRING topic else NO_TOPIC_STRING.

(** [useConversationAreaTopic]: the initial state,
    [useState(area.topic ? area.topic : NO_TOPIC_STRING)], with its two reads
    of [area.topic]. *)
Definition useConversationAreaTopic_initial (area : t) : Js string :=
  test ← get_topic area;
  if truthy test then
    topic ← get_topic area;
    mret (default NO_TOPIC_STRING topic)
  else mret NO_TOPIC_STRING.

(** [updateTopic(newTopic)]: the state it sets. *)
Definition updateTopic (newTopic : option string) : string :=
  let newTopicString := topic_or_no_topic newTopic in
  newTopicString.

(** The state of the hook after the calls that a stretch of the log records
    for its listener [updateTopic]. *)
Definition topic_called (updateTopic_ref : Listener) (state : string)
    (entry : LogEntry) : string :=
  match entry with
  | Call l (topicChange newTopic) =>
      if decide (l = updateTopic_ref) then updateTopic newTopic else state
  | _ => state
  end.

Definition topic_after (updateTopic_ref : Listener) (entries : list LogEntry)
    (state : string) : string :=
  foldl (topic_called updateTopic_ref) state entries.

(** [useConversationAreaOccupants]: the initial state,
    [useState(area.occupants)]. *)
Definition useConversationAreaOccupants_initial (area : t) : Js ArrayRef :=
  get_occupants area.

(** [updateOccupants(newOccupants)]: the state it sets. *)
Definition updateOccupants (newOccupants : ArrayRef) : ArrayRef := newOccupants.

Definition occupants_called (updateOccupants_ref : Listener) (state : ArrayRef)
    (entry : LogEntry) : ArrayRef :=
  match entry with
  | Call l (occupantsChange newOccupants) =>
      if decide (l = updateOccupants_ref) then updateOccupants newOccupants else state
  | _ => state
  end.

Definition occupants_after (updateOccupants_ref : Listener)
    (entries : list LogEntry) (state : ArrayRef) : ArrayRef :=
  foldl (occupants_called updateOccupants_ref) state entries.

(** The effect of either hook and its cleanup. *)
Definition effect (eventName : string) (listener : Listener) (area : t) : t :=
  addListener eventName listener area.

Definition cleanup (eventName : string) (listener : Listener) (area : t) : t :=
  removeListener eventName listener area.

End ConversationAreaHooks.

(** ** The [ViewingArea] component of the viewing-area file *)
Module ViewingAreaComponent.

(** The two [useState] cells. *)
Record State := mkState {
  selectIsOpen : bool;
  viewingAreaVideoURL : option string
}.

(** What the component returns. *)
Inductive Element :=
  | SelectVideoModal (isOpen : bool)
  | ViewingAreaVideo.

(** [if (!viewingAreaVideoURL) return <SelectVideoModal .../>; return <ViewingAreaVideo .../>] *)
Definition render (s : State) : Element :=
  if negb (truthy (viewingAreaVideoURL s)) then SelectVideoModal (selectIsOpen s)
  else ViewingAreaVideo.

(** [townController.interactableEmitter.emit('endIteraction', viewingAreaController)] *)
Inductive InteractableEvent := endIteraction.

(** [setURL(url)], the listener of [videoChange]: the state it leaves and what
    it emits on the town's interactable emitter. *)
Definition setURL (url : option string) (s : State) : State * list InteractableEvent :=
  if negb (truthy url) then (s, [endIteraction])
  else (mkState (selectIsOpen s) url, []).

(** [close={() => setSelectIsOpen(false)}] *)
Definition close (s : State) : State := mkState false (viewingAreaVideoURL s).

(** What reaches the mounted component: a [videoChange] event or the modal's
    [close]. *)
Inductive Input :=
  | VideoChange (url : option string)
  | Close.

Definition react (i : Input) (s : State) : State * list InteractableEvent :=
  match i with
  | VideoChange url => setURL url s
  | Close => (close s, [])
  end.

Fixpoint react_all (inputs : list Input) (s : State) : State * list InteractableEvent :=
  match inputs with
  | [] => (s, [])
  | i :: rest =>
      let '(s', out) := react i s in
      let '(s'', out') := react_all rest s' in
      (s'', out ++ out')
  end.

End ViewingAreaComponent.

(** ** Fixtures: the areas the test suites build in [beforeEach] *)
Module Fixtures.
Import ConversationAreaController.

Definition alice : PlayerController := mkPlayer 1 "alice".
Definition bob : PlayerController := mkPlayer 2 "bob".
Definition carol : PlayerController := mkPlayer 3 "carol".

(** Array 1 holds the occupants of [testArea]; 2 is the same list reordered,
    3 a list of new players, 4 an empty list; 5 holds the occupants of
    [pairArea], and 6 repeats the first of them. *)
Definition heap : gmap ArrayRef (list PlayerController) :=
  {[ 1%positive := [alice; bob; carol];
     2%positive := [carol; alice; bob];
     3%positive := [mkPlayer 4 "dave"; mkPlayer 5 "erin"; mkPlayer 6 "frank"];
     4%positive := [];
     5%positive := [alice; bob];
     6%positive := [alice; alice] ]}.

Definition world : World := mkWorld heap [].

(** [testArea], with its two mock listeners subscribed. *)
Definition testArea : t :=
  addListener "topicChange" 1
    (addListener "occupantsChange" 0
       (mk EventEmitter.new "area-1" (Some "fruits") 1%positive)).

(** An area with the two occupants of array 5. *)
Definition pairArea : t :=
  addListener "occupantsChange" 0
    (mk EventEmitter.new "area-2" (Some "fruits") 5%positive).

(** A [playerFinder]: the players of the town whose id is asked for, in a new
    array. *)
Definition players : list PlayerController := [alice; bob; carol].

Definition playerFinder (playerIDs : list string) : Js ArrayRef :=
  new_array (filter (λ p, player_id p ∈ playerIDs) players).

End Fixtures.

(** ** Vocabulary of the properties *)

(** The call returns (it does not throw), with a result and a world that
    satisfy [P]. *)
Definition returns_with {A : Type} (P : A → World → Prop) (c : Js A)
    (w : World) : Prop :=
  ∃ a w', c w = (Normal a, w') ∧ P a w'.

Definition returns {A : Type} (c : Js A) (w : World) : Prop :=
  returns_with (λ _ _, True) c w.

(** The class invariant behind the field's type [PlayerController[]]:
    [_occupants] refers to an array. *)
Definition occupants_live (this : ConversationAreaController.t) (w : World) : Prop :=
  is_Some (arrays w !! ConversationAreaController._occupants this).

(** What [_isSameOccupantsList] answers on two arrays with the elements [cur]
    (stored) and [new] (assigned): the lengths are equal and every element of
    [new] is in the [Set] of [cur]. *)
Definition same_occupants (cur new : list PlayerController) : bool :=
  bool_decide (length cur = length new) &&
  ConversationAreaController.every_has (list_to_set cur) new.

(** How a changing [set occupants] ends: the new reference stored, and one
    [occupantsChange] emitted to the subscribers in order. *)
Definition occupants_changed (this : ConversationAreaController.t) (w : World)
    (r : ArrayRef) : Completion ConversationAreaController.t * World :=
  (Normal (ConversationAreaController.with_occupants r this),
   mkWorld (arrays w)
     (log w ++ Emit (occupantsChange r) ::
        ((λ l, Call l (occupantsChange r)) <$>
           EventEmitter.listeners "occupantsChange"
             (ConversationAreaController.emitter this)))).

(** The computation writes to no array and allocates none, and only adds to
    the log, whether it returns or throws. *)
Definition keeps_arrays {A : Type} (c : Js A) : Prop :=
  ∀ w, arrays (c w).2 = arrays w ∧ ∃ entries, log (c w).2 = log w ++ entries.


(** What one [emit] adds to the log. *)
Definition calls (ev : Event) (e : EventEmitter.t) : list LogEntry :=
  Emit ev :: ((λ l, Call l ev) <$> EventEmitter.listeners (event_name ev) e).

(** The inputs on which the [ViewingArea] component ends the interaction: a
    [videoChange] whose payload is falsy. *)
Definition ends_interaction (i : ViewingAreaComponent.Input) : bool :=
  match i with
  | ViewingAreaComponent.VideoChange url => negb (truthy url)
  | ViewingAreaComponent.Close => false
  end.




(** ** The [Js] monad *)
Section JsMonad.
Context {A B : Type}.
Implicit Types (m : Js A) (k : A → Js B) (w : World).

Lemma bind_Normal m k w a w' :
  m w = (Normal a, w') → (m ≫= k) w = k a w'.
Proof. intros Hm. unfold mbind, Js_bind. by rewrite Hm. Qed.

Lemma bind_Throw m k w e w' :
  m w = (Throw e, w') → (m ≫= k) w = (Throw e, w').
Proof. intros Hm. unfold mbind, Js_bind. by rewrite Hm. Qed.

Lemma bind_ret (a : A) k w : (mret a ≫= k) w = k a w.
Proof. reflexivity. Qed.

End JsMonad.

Lemma read_array_live w r elems :
  arrays w !! r = Some elems → read_array r w = (Normal elems, w).
Proof. intros Hr. unfold read_array. by rewrite Hr. Qed.

Lemma array_length_live w r elems :
  arrays w !! r = Some elems → array_length r w = (Normal (length elems), w).
Proof.
  intros Hr. unfold array_length.
  by rewrite (bind_Normal _ _ _ _ _ (read_array_live _ _ _ Hr)).
Qed.

(** ** ConversationAreaController: change detection of the occupants *)
Section Occupants.
Import ConversationAreaController.
Implicit Types (this : t) (w : World) (r : ArrayRef)
  (cur new : list PlayerController).

Lemma every_has_true (s : gset PlayerController) new :
  every_has s new = true ↔ ∀ p, p ∈ new → p ∈ s.
Proof.
  induction new as [|p new IH]; simpl.
  - split; [intros _ p Hp; by apply elem_of_nil in Hp | done].
  - case_bool_decide as Hp.
    + rewrite IH. split.
      * intros Hall q [->|Hq]%elem_of_cons; auto.
      * intros Hall q Hq. apply Hall. by right.
    + split; [done | intros Hall]. exfalso. apply Hp, Hall. by left.
Qed.

Lemma isSameOccupantsList_live this w r cur new :
  arrays w !! _occupants this = Some cur →
  arrays w !! r = Some new →
  _isSameOccupantsList this r w = (Normal (same_occupants cur new), w).
Proof.
  intros Hcur Hnew. unfold _isSameOccupantsList, get_occupants, same_occupants.
  rewrite bind_ret.
  rewrite (bind_Normal _ _ _ _ _ (array_length_live _ _ _ Hcur)).
  rewrite (bind_Normal _ _ _ _ _ (array_length_live _ _ _ Hnew)).
  case_bool_decide; [|done].
  rewrite bind_ret.
  rewrite (bind_Normal _ _ _ _ _ (read_array_live _ _ _ Hcur)).
  by rewrite (bind_Normal _ _ _ _ _ (read_array_live _ _ _ Hnew)).
Qed.

Lemma same_occupants_true cur new :
  same_occupants cur new = true ↔
  length cur = length new ∧ ∀ p, p ∈ new → p ∈ cur.
Proof.
  unfold same_occupants.
  rewrite andb_true_iff, bool_decide_eq_true, every_has_true.
  by setoid_rewrite elem_of_list_to_set.
Qed.

(** The two ways [set occupants] ends on live arrays. *)
Lemma set_occupants_unchanged this w r cur new :
  arrays w !! _occupants this = Some cur →
  arrays w !! r = Some new →
  same_occupants cur new = true →
  set_occupants r this w = (Normal this, w).
Proof.
  intros Hcur Hnew Hsame. unfold set_occupants.
  rewrite (bind_Normal _ _ _ _ _ (isSameOccupantsList_live _ _ _ _ _ Hcur Hnew)).
  by rewrite Hsame.
Qed.

Lemma set_occupants_changed this w r cur new :
  arrays w !! _occupants this = Some cur →
  arrays w !! r = Some new →
  same_occupants cur new = false →
  set_occupants r this w =
    (Normal (with_occupants r this),
     mkWorld (arrays w)
       (log w ++ Emit (occupantsChange r) ::
          ((λ l, Call l (occupantsChange r)) <$>
             EventEmitter.listeners "occupantsChange" (emitter this)))).
Proof.
  intros Hcur Hnew Hsame. unfold set_occupants.
  rewrite (bind_Normal _ _ _ _ _ (isSameOccupantsList_live _ _ _ _ _ Hcur Hnew)).
  by rewrite Hsame.
Qed.

(** C1.  Assigning to [occupants] an array whose elements are a permutation of
    the stored array's elements stores nothing and emits nothing: the setter
    returns with the controller as it was, so [get occupants] still yields the
    reference stored before, and the world (heap and log) is as it was, so no
    [occupantsChange] was emitted and no listener was called. *)
Theorem set_occupants_permutation_noop this w r cur new :
  arrays w !! _occupants this = Some cur →
  arrays w !! r = Some new →
  new ≡ₚ cur →
  set_occupants r this w = (Normal this, w) ∧
  (this' ← set_occupants r this; get_occupants this') w
    = (Normal (_occupants this), w).
Proof.
  intros Hcur Hnew Hperm.
  assert (set_occupants r this w = (Normal this, w)) as Hset.
  { apply (set_occupants_unchanged _ _ _ cur new); [done..|].
    apply same_occupants_true. split.
    - symmetry. by apply Permutation_length.
    - intros p Hp. by rewrite <-Hperm. }
  split; [done|]. by rewrite (bind_Normal _ _ _ _ _ Hset).
Qed.

Lemma set_occupants_permutation_noop_witness :
  set_occupants 2%positive Fixtures.testArea Fixtures.world
    = (Normal Fixtures.testArea, Fixtures.world) ∧
  (this' ← set_occupants 2%positive Fixtures.testArea; get_occupants this') Fixtures.world
    = (Normal 1%positive, Fixtures.world).
Proof.
  apply (set_occupants_permutation_noop Fixtures.testArea Fixtures.world 2%positive
           [Fixtures.alice; Fixtures.bob; Fixtures.carol]
           [Fixtures.carol; Fixtures.alice; Fixtures.bob]).
  - reflexivity.
  - reflexivity.
  - change [Fixtures.carol; Fixtures.alice; Fixtures.bob]
      with ([Fixtures.carol] ++ [Fixtures.alice; Fixtures.bob]).
    rewrite Permutation_app_comm. reflexivity.
Defined.

(** Assigning the stored reference itself is always a no-op, whatever was done
    to the array in place since it was stored (the suite's [newOccupants.pop()]
    followed by a second assignment of [newOccupants]). *)
Lemma set_occupants_stored_reference this w cur :
  arrays w !! _occupants this = Some cur →
  set_occupants (_occupants this) this w = (Normal this, w).
Proof.
  intros Hcur. apply (set_occupants_unchanged _ _ _ cur cur); [done..|].
  apply same_occupants_true. auto.
Qed.

(** When the new array differs in length from the stored one, or holds an
    element the stored one lacks, the setter stores the new reference and emits
    [occupantsChange] once, carrying it, to the subscribers in order. *)
Lemma set_occupants_new_member_or_length this w r cur new :
  arrays w !! _occupants this = Some cur →
  arrays w !! r = Some new →
  length cur ≠ length new ∨ (∃ p, p ∈ new ∧ p ∉ cur) →
  set_occupants r this w =
    (Normal (with_occupants r this),
     mkWorld (arrays w)
       (log w ++ Emit (occupantsChange r) ::
          ((λ l, Call l (occupantsChange r)) <$>
             EventEmitter.listeners "occupantsChange" (emitter this)))).
Proof.
  intros Hcur Hnew Hdiff.
  apply (set_occupants_changed _ _ _ cur new); [done..|].
  apply not_true_is_false. rewrite same_occupants_true.
  intros [Hlen Hall]. destruct Hdiff as [?|(p & Hp & Hnp)]; [done|].
  by apply Hnp, Hall.
Qed.

(** C2 (the code departs from the claim).  The stored occupants are
    [[alice; bob]] and the assigned array is [[alice; alice]]: the membership
    differs ([bob] is in the one and not in the other), the lengths are equal,
    and every element of the new array is in the [Set] built from the stored
    one, so [_isSameOccupantsList] answers [true]: the setter stores nothing
    and emits nothing. *)
Theorem set_occupants_duplicate_reference_ignored :
  arrays Fixtures.world !! _occupants Fixtures.pairArea
    = Some [Fixtures.alice; Fixtures.bob] ∧
  arrays Fixtures.world !! 6%positive = Some [Fixtures.alice; Fixtures.alice] ∧
  (Fixtures.bob ∈ [Fixtures.alice; Fixtures.bob]) ∧
  (Fixtures.bob ∉ [Fixtures.alice; Fixtures.alice]) ∧
  set_occupants 6%positive Fixtures.pairArea Fixtures.world
    = (Normal Fixtures.pairArea, Fixtures.world).
Proof.
  split_and!; [reflexivity | reflexivity | | |].
  - apply elem_of_cons. right. apply elem_of_cons. by left.
  - intros Hin. repeat (apply elem_of_cons in Hin as [Heq|Hin]; [discriminate Heq|]).
    by apply elem_of_nil in Hin.
  - apply (set_occupants_unchanged _ _ _ [Fixtures.alice; Fixtures.bob]
             [Fixtures.alice; Fixtures.alice]); [reflexivity..|].
    by vm_compute.
Qed.

End Occupants.

(** ** ConversationAreaController: the topic and [isEmpty] *)
Section Topic.
Import ConversationAreaController.
Implicit Types (this : t) (w : World).

(** Listeners are kept in subscription order: a new one goes last. *)
Lemma listeners_addListener eventName name l (e : EventEmitter.t) :
  EventEmitter.listeners eventName (EventEmitter.addListener name l e) =
  (EventEmitter.listeners eventName e
     ++ if decide (name = eventName) then [l] else []).
Proof.
  unfold EventEmitter.listeners, EventEmitter.addListener. simpl.
  rewrite filter_app, fmap_app. f_equal.
  rewrite filter_cons, filter_nil. simpl. by destruct (decide (name = eventName)).
Qed.

(** The two ways [set topic] ends. *)
Lemma set_topic_unchanged this w :
  set_topic (_topic this) this w = (Normal this, w).
Proof. unfold set_topic. by rewrite bool_decide_eq_false_2 by auto. Qed.

Lemma set_topic_changed this w newTopic :
  newTopic ≠ _topic this →
  set_topic newTopic this w =
    (Normal (with_topic newTopic this),
     mkWorld (arrays w)
       (log w ++ Emit (topicChange newTopic) ::
          ((λ l, Call l (topicChange newTopic)) <$>
             EventEmitter.listeners "topicChange" (emitter this)))).
Proof. intros Hne. unfold set_topic. by rewrite bool_decide_eq_true_2 by auto. Qed.

(** C5.  [set topic] with the current topic changes nothing and emits nothing;
    with any other value (a string or absent) it stores the value, a read of
    [topic] returns it, and it emits [topicChange] exactly once: one [Emit]
    entry followed by one call per subscriber of [topicChange], in
    subscription order (a later [addListener] goes last), each carrying the
    new value. *)
Theorem set_topic_change_detection this w newTopic :
  (newTopic = _topic this → set_topic newTopic this w = (Normal this, w)) ∧
  (newTopic ≠ _topic this →
     let w' := mkWorld (arrays w)
       (log w ++ Emit (topicChange newTopic) ::
          ((λ l, Call l (topicChange newTopic)) <$>
             EventEmitter.listeners "topicChange" (emitter this))) in
     set_topic newTopic this w = (Normal (with_topic newTopic this), w') ∧
     (this' ← set_topic newTopic this; get_topic this') w = (Normal newTopic, w')) ∧
  (∀ l, EventEmitter.listeners "topicChange" (emitter (addListener "topicChange" l this))
        = EventEmitter.listeners "topicChange" (emitter this) ++ [l]).
Proof.
  split_and!.
  - intros ->. apply set_topic_unchanged.
  - intros Hne w'. pose proof (set_topic_changed this w newTopic Hne) as Hset.
    split; [done|]. by rewrite (bind_Normal _ _ _ _ _ Hset).
  - intros l. simpl. by rewrite listeners_addListener.
Qed.

Lemma set_topic_change_detection_witness :
  set_topic None (addListener "topicChange" 2 Fixtures.testArea) Fixtures.world =
    (Normal (with_topic None (addListener "topicChange" 2 Fixtures.testArea)),
     mkWorld Fixtures.heap
       [Emit (topicChange None); Call 1 (topicChange None); Call 2 (topicChange None)]).
Proof.
  apply (set_topic_change_detection
           (addListener "topicChange" 2 Fixtures.testArea) Fixtures.world None).
  discriminate.
Defined.

Lemma isEmpty_live this w occupants :
  arrays w !! _occupants this = Some occupants →
  isEmpty this w =
    (Normal (bool_decide (_topic this = None) || bool_decide (length occupants = 0)), w).
Proof.
  intros Hocc. unfold isEmpty. case_bool_decide; [done|].
  by rewrite (bind_Normal _ _ _ _ _ (array_length_live _ _ _ Hocc)).
Qed.

(** C7.  [isEmpty] answers [true] exactly when the topic is absent or the
    occupants array has length zero, and leaves the world as it was (no
    mutation, no event). *)
Theorem isEmpty_iff this w occupants :
  arrays w !! _occupants this = Some occupants →
  ∃ b, isEmpty this w = (Normal b, w) ∧
       (b = true ↔ _topic this = None ∨ length occupants = 0).
Proof.
  intros Hocc. eexists. split; [by apply isEmpty_live|].
  by rewrite orb_true_iff, !bool_decide_eq_true.
Qed.

Lemma isEmpty_iff_witness :
  ∃ b, isEmpty Fixtures.testArea Fixtures.world = (Normal b, Fixtures.world) ∧
       (b = true ↔ _topic Fixtures.testArea = None ∨
                    length [Fixtures.alice; Fixtures.bob; Fixtures.carol] = 0).
Proof.
  apply (isEmpty_iff Fixtures.testArea Fixtures.world
           [Fixtures.alice; Fixtures.bob; Fixtures.carol]).
  reflexivity.
Defined.

End Topic.

(** ** ConversationAreaController: the factory and the model *)
Section Model.
Import ConversationAreaController.
Implicit Types (this ret : t) (w : World) (r found : ArrayRef)
  (m : ConversationAreaModel) (playerFinder : list string → Js ArrayRef).

(** The constructor allocates its empty array at a reference that was not in
    use, and subscribes nobody. *)
Lemma new_spec id topic w :
  new id topic w =
    (Normal (mk EventEmitter.new id topic (fresh (dom (arrays w)))),
     mkWorld (<[fresh (dom (arrays w)) := []]> (arrays w)) (log w)).
Proof. reflexivity. Qed.

Lemma new_fresh id topic w ret w1 :
  new id topic w = (Normal ret, w1) →
  emitter ret = EventEmitter.new ∧ _id ret = id ∧ _topic ret = topic ∧
  (_occupants ret ∉ dom (arrays w)) ∧ arrays w1 !! _occupants ret = Some [].
Proof.
  rewrite new_spec. intros [= <- <-]. simpl. split_and!; try done.
  - apply is_fresh.
  - apply lookup_insert_eq.
Qed.

Lemma toConversationAreaModel_live this w occupants :
  arrays w !! _occupants this = Some occupants →
  toConversationAreaModel this w =
    (Normal (mkConversationAreaModel (_id this) (_topic this) (player_id <$> occupants)), w).
Proof.
  intros Hocc. unfold toConversationAreaModel.
  by rewrite (bind_Normal _ _ _ _ _ (read_array_live _ _ _ Hocc)).
Qed.

(** The factory, step by step: the constructor, then [playerFinder], then the
    [occupants] setter on what it returned. *)
Lemma fromConversationAreaModel_steps m playerFinder w ret w1 found w2 :
  new (area_id m) (area_topic m) w = (Normal ret, w1) →
  playerFinder (occupantsByID m) w1 = (Normal found, w2) →
  fromConversationAreaModel m playerFinder w = set_occupants found ret w2.
Proof.
  intros Hnew Hfind. unfold fromConversationAreaModel.
  rewrite (bind_Normal _ _ _ _ _ Hnew). by rewrite (bind_Normal _ _ _ _ _ Hfind).
Qed.

(** C10.  In [fromConversationAreaModel], when the array [playerFinder]
    returns is not empty the controller stores that very reference and the
    setter emits [occupantsChange] once, which reaches no listener (nobody can
    have subscribed to a controller that has not been returned yet); when it is
    empty the controller keeps the empty array its constructor allocated, the
    returned array is not stored, and nothing is emitted.  The constructor's
    array is private to the new controller: [playerFinder] returns another
    array and leaves that one empty. *)
Theorem fromConversationAreaModel_occupants m playerFinder w ret w1 found w2 players :
  new (area_id m) (area_topic m) w = (Normal ret, w1) →
  playerFinder (occupantsByID m) w1 = (Normal found, w2) →
  arrays w2 !! found = Some players →
  arrays w2 !! _occupants ret = Some [] →
  found ≠ _occupants ret →
  (players ≠ [] →
     fromConversationAreaModel m playerFinder w =
       (Normal (with_occupants found ret),
        mkWorld (arrays w2) (log w2 ++ [Emit (occupantsChange found)])) ∧
     _occupants (with_occupants found ret) = found) ∧
  (players = [] →
     fromConversationAreaModel m playerFinder w = (Normal ret, w2) ∧
     _occupants ret ≠ found ∧ (_occupants ret ∉ dom (arrays w))).
Proof.
  intros Hnew Hfind Hfound Hown Hne.
  rewrite (fromConversationAreaModel_steps _ _ _ _ _ _ _ Hnew Hfind).
  destruct (new_fresh _ _ _ _ _ Hnew) as (Hem & _ & _ & Hfresh & _).
  split.
  - intros Hplayers. split; [|done].
    rewrite (set_occupants_new_member_or_length _ _ _ [] players Hown Hfound).
    + by rewrite Hem.
    + left. destruct players; [done | simpl; lia].
  - intros ->. split_and!; [|done..].
    by apply (set_occupants_unchanged _ _ _ [] []).
Qed.

Lemma fromConversationAreaModel_occupants_witness :
  fromConversationAreaModel (mkConversationAreaModel "area-3" None ["alice"; "bob"])
    Fixtures.playerFinder Fixtures.world =
    (Normal (mk EventEmitter.new "area-3" None 8%positive),
     mkWorld (<[8%positive := [Fixtures.alice; Fixtures.bob]]>
                (<[7%positive := []]> Fixtures.heap))
       [Emit (occupantsChange 8%positive)]).
Proof.
  refine (proj1 (proj1 (fromConversationAreaModel_occupants
           (mkConversationAreaModel "area-3" None ["alice"; "bob"])
           Fixtures.playerFinder Fixtures.world
           (mk EventEmitter.new "area-3" None 7%positive)
           (mkWorld (<[7%positive := []]> Fixtures.heap) [])
           8%positive
           (mkWorld (<[8%positive := [Fixtures.alice; Fixtures.bob]]>
                       (<[7%positive := []]> Fixtures.heap)) [])
           [Fixtures.alice; Fixtures.bob] _ _ _ _ _) _)).
  - by vm_compute.
  - by vm_compute.
  - by vm_compute.
  - by vm_compute.
  - discriminate.
  - discriminate.
Defined.

(** C6.  A model survives the trip through a controller: when [playerFinder]
    answers the model's ids, in order, with players bearing those ids (and
    leaves the new controller's own array alone),
    [toConversationAreaModel] of [fromConversationAreaModel m playerFinder]
    is [m], with or without a topic, ids in the same order.  In any state
    [toConversationAreaModel] is the current id, the current topic and the ids
    of the stored occupants in stored order, and it leaves the world as it
    was; so after [set topic] it shows the topic just set, and after
    [set occupants] the ids of the array the setter left stored. *)
Theorem toConversationAreaModel_round_trip :
  (∀ m playerFinder w ret w1 found w2 players,
     new (area_id m) (area_topic m) w = (Normal ret, w1) →
     playerFinder (occupantsByID m) w1 = (Normal found, w2) →
     arrays w2 !! found = Some players →
     player_id <$> players = occupantsByID m →
     arrays w2 !! _occupants ret = Some [] →
     ∃ w3, (this ← fromConversationAreaModel m playerFinder;
            toConversationAreaModel this) w = (Normal m, w3)) ∧
  (∀ this w occupants,
     arrays w !! _occupants this = Some occupants →
     toConversationAreaModel this w =
       (Normal (mkConversationAreaModel (_id this) (_topic this)
                  (player_id <$> occupants)), w)) ∧
  (∀ this w newTopic occupants,
     arrays w !! _occupants this = Some occupants →
     ∃ w', (this' ← set_topic newTopic this; toConversationAreaModel this') w =
             (Normal (mkConversationAreaModel (_id this) newTopic
                        (player_id <$> occupants)), w')) ∧
  (∀ this w r cur new,
     arrays w !! _occupants this = Some cur →
     arrays w !! r = Some new →
     ∃ w', (this' ← set_occupants r this; toConversationAreaModel this') w =
             (Normal (mkConversationAreaModel (_id this) (_topic this)
                        (player_id <$> if same_occupants cur new then cur else new)),
              w')).
Proof.
  split_and!.
  - intros m playerFinder w ret w1 found w2 players Hnew Hfind Hfound Hids Hown.
    destruct (new_fresh _ _ _ _ _ Hnew) as (Hem & Hid & Htopic & _ & _).
    pose proof (fromConversationAreaModel_steps _ _ _ _ _ _ _ Hnew Hfind) as Hfrom.
    destruct m as [id topic ids]. simpl in *.
    destruct (same_occupants [] players) eqn:Hsame.
    + pose proof Hsame as [Hlen _]%same_occupants_true.
      destruct players; [|done]. simpl in Hids. subst ids.
      rewrite (set_occupants_unchanged _ _ _ [] [] Hown Hfound Hsame) in Hfrom.
      exists w2. rewrite (bind_Normal _ _ _ _ _ Hfrom).
      rewrite (toConversationAreaModel_live _ _ _ Hown). by rewrite Hid, Htopic.
    + rewrite (set_occupants_changed _ _ _ [] players Hown Hfound Hsame) in Hfrom.
      eexists. rewrite (bind_Normal _ _ _ _ _ Hfrom).
      erewrite toConversationAreaModel_live by exact Hfound.
      simpl. by rewrite Hid, Htopic, Hids.
  - apply toConversationAreaModel_live.
  - intros this w newTopic occupants Hocc.
    destruct (decide (newTopic = _topic this)) as [->|Hne].
    + exists w. rewrite (bind_Normal _ _ _ _ _ (set_topic_unchanged this w)).
      by rewrite (toConversationAreaModel_live _ _ _ Hocc).
    + eexists. rewrite (bind_Normal _ _ _ _ _ (set_topic_changed this w newTopic Hne)).
      by erewrite toConversationAreaModel_live by exact Hocc.
  - intros this w r cur new Hcur Hnew.
    destruct (same_occupants cur new) eqn:Hsame.
    + exists w.
      rewrite (bind_Normal _ _ _ _ _ (set_occupants_unchanged _ _ _ _ _ Hcur Hnew Hsame)).
      by rewrite (toConversationAreaModel_live _ _ _ Hcur).
    + eexists.
      rewrite (bind_Normal _ _ _ _ _ (set_occupants_changed _ _ _ _ _ Hcur Hnew Hsame)).
      by erewrite toConversationAreaModel_live by exact Hnew.
Qed.

Lemma toConversationAreaModel_round_trip_witness :
  ∃ w3, (this ← fromConversationAreaModel
                   (mkConversationAreaModel "area-3" (Some "fruits") ["alice"; "bob"])
                   Fixtures.playerFinder;
         toConversationAreaModel this) Fixtures.world =
        (Normal (mkConversationAreaModel "area-3" (Some "fruits") ["alice"; "bob"]), w3).
Proof.
  refine (proj1 toConversationAreaModel_round_trip
            (mkConversationAreaModel "area-3" (Some "fruits") ["alice"; "bob"])
            Fixtures.playerFinder Fixtures.world
            (mk EventEmitter.new "area-3" (Some "fruits") 7%positive)
            (mkWorld (<[7%positive := []]> Fixtures.heap) [])
            8%positive
            (mkWorld (<[8%positive := [Fixtures.alice; Fixtures.bob]]>
                        (<[7%positive := []]> Fixtures.heap)) [])
            [Fixtures.alice; Fixtures.bob] _ _ _ _ _).
  - by vm_compute.
  - by vm_compute.
  - by vm_compute.
  - reflexivity.
  - by vm_compute.
Defined.

(** *** No exception in normal use *)

Lemma set_occupants_live this w r :
  occupants_live this w → is_Some (arrays w !! r) →
  returns_with occupants_live (set_occupants r this) w.
Proof.
  intros [cur Hcur] [new Hnew]. destruct (same_occupants cur new) eqn:Hsame.
  - exists this, w. split; [by apply (set_occupants_unchanged _ _ _ cur new)|].
    by exists cur.
  - eexists _, _. split; [by apply (set_occupants_changed _ _ _ cur new)|].
    by exists new.
Qed.

Lemma set_topic_live this w newTopic :
  occupants_live this w → returns_with occupants_live (set_topic newTopic this) w.
Proof.
  intros Hlive. destruct (decide (newTopic = _topic this)) as [->|Hne].
  - exists this, w. split; [apply set_topic_unchanged | done].
  - eexists _, _. split; [by apply set_topic_changed | exact Hlive].
Qed.

Lemma new_live id topic w : returns_with occupants_live (new id topic) w.
Proof.
  eexists _, _. split; [apply new_spec|].
  unfold occupants_live. simpl. rewrite lookup_insert_eq. by eexists.
Qed.

(** C9.  No operation of the class throws in normal use.  For a controller
    whose [_occupants] is an array (the constructor makes it so and the setters
    keep it so), an assigned [newOccupants] that is an array, any id, topic and
    model (duplicate ids in [occupantsByID] included), and a [playerFinder]
    that returns an array normally: the constructor, the three getters, the
    two setters, [isEmpty], [toConversationAreaModel] and
    [fromConversationAreaModel] all return, and those that yield a controller
    yield one whose [_occupants] is an array again. *)
Theorem no_exception_in_normal_use this w id topic newTopic newOccupants m playerFinder :
  occupants_live this w →
  is_Some (arrays w !! newOccupants) →
  (∀ ret w1, new (area_id m) (area_topic m) w = (Normal ret, w1) →
     ∃ found w2, playerFinder (occupantsByID m) w1 = (Normal found, w2) ∧
       is_Some (arrays w2 !! found) ∧ occupants_live ret w2) →
  returns_with occupants_live (new id topic) w ∧
  returns (get_id this) w ∧
  returns (get_topic this) w ∧
  returns (get_occupants this) w ∧
  returns_with occupants_live (set_topic newTopic this) w ∧
  returns_with occupants_live (set_occupants newOccupants this) w ∧
  returns (isEmpty this) w ∧
  returns (toConversationAreaModel this) w ∧
  returns_with occupants_live (fromConversationAreaModel m playerFinder) w.
Proof.
  intros Hlive Hnew Hfinder. split_and!.
  - apply new_live.
  - by exists (_id this), w.
  - by exists (_topic this), w.
  - by exists (_occupants this), w.
  - by apply set_topic_live.
  - by apply set_occupants_live.
  - destruct Hlive as [occupants Hocc].
    eexists _, w. split; [by apply isEmpty_live | done].
  - destruct Hlive as [occupants Hocc]. eexists _, w.
    split; [by apply toConversationAreaModel_live|done].
  - destruct (Hfinder _ _ (new_spec _ _ _)) as (found & w2 & Hfind & Hfound & Hret).
    destruct (set_occupants_live _ _ _ Hret Hfound) as (this' & w' & Hset & Hlive').
    exists this', w'. split; [|done].
    by rewrite (fromConversationAreaModel_steps _ _ _ _ _ _ _ (new_spec _ _ _) Hfind).
Qed.

Lemma no_exception_in_normal_use_witness :
  returns_with occupants_live
    (fromConversationAreaModel
       (mkConversationAreaModel "area-3" None ["alice"; "alice"; "zed"])
       Fixtures.playerFinder)
    Fixtures.world.
Proof.
  refine (proj2 (proj2 (proj2 (proj2 (proj2 (proj2 (proj2 (proj2
    (no_exception_in_normal_use Fixtures.testArea Fixtures.world
       "area-4" None (Some "fruits") 2%positive
       (mkConversationAreaModel "area-3" None ["alice"; "alice"; "zed"])
       Fixtures.playerFinder _ _ _))))))))).
  - exists [Fixtures.alice; Fixtures.bob; Fixtures.carol]. reflexivity.
  - exists [Fixtures.carol; Fixtures.alice; Fixtures.bob]. reflexivity.
  - intros ret w1 Hnew. rewrite new_spec in Hnew. injection Hnew as <- <-.
    exists 8%positive.
    exists (mkWorld (<[8%positive := [Fixtures.alice]]>
                       (<[7%positive := []]> Fixtures.heap)) []).
    split_and!.
    + by vm_compute.
    + exists [Fixtures.alice]. by vm_compute.
    + exists []. by vm_compute.
Defined.

End Model.

(** ** The cases of ConversationAreaController.test.ts, run on the model *)
Section Suite.
Import ConversationAreaController Fixtures.

(** 'Updates occupants list and emits occupantsChange event when passed a new
    occupants list' *)
Example suite_occupants_new_list :
  set_occupants 3%positive testArea world =
    (Normal (with_occupants 3%positive testArea),
     mkWorld heap [Emit (occupantsChange 3%positive); Call 0 (occupantsChange 3%positive)]).
Proof. by vm_compute. Qed.

(** '... when passed an empty list' *)
Example suite_occupants_empty_list :
  set_occupants 4%positive testArea world =
    (Normal (with_occupants 4%positive testArea),
     mkWorld heap [Emit (occupantsChange 4%positive); Call 0 (occupantsChange 4%positive)]).
Proof. by vm_compute. Qed.

(** 'Does not update the topic or emit event if the topic passed is that same
    as the old one', and the two cases around [undefined]. *)
Example suite_topic :
  set_topic (Some "fruits") testArea world = (Normal testArea, world) ∧
  set_topic None (with_topic None testArea) world
    = (Normal (with_topic None testArea), world) ∧
  set_topic None testArea world =
    (Normal (with_topic None testArea),
     mkWorld heap [Emit (topicChange None); Call 1 (topicChange None)]).
Proof. by vm_compute. Qed.

(** The four rows of [isEmpty]: topic defined or not, occupants or none. *)
Example suite_isEmpty :
  isEmpty testArea world = (Normal false, world) ∧
  isEmpty (with_occupants 4%positive testArea) world = (Normal true, world) ∧
  isEmpty (with_topic None testArea) world = (Normal true, world) ∧
  isEmpty (with_topic None (with_occupants 4%positive testArea)) world
    = (Normal true, world).
Proof. by vm_compute. Qed.

(** 'Succeeds on a filled out ConverstionArea' *)
Example suite_toConversationAreaModel :
  toConversationAreaModel testArea world =
    (Normal (mkConversationAreaModel "area-1" (Some "fruits") ["alice"; "bob"; "carol"]),
     world).
Proof. by vm_compute. Qed.

End Suite.

(** ** ViewingAreaController *)
Section ViewingArea.
Import ViewingAreaController.
Implicit Types (this : t) (w : World).

(** C3 (the code departs from the claim).  [updateFrom] starts with the
    assignment [this.isPlaying = ...], and the [isPlaying] setter throws
    [Unimplemented]: for every controller and every model [updateFrom] throws
    before anything is stored, also on a controller fresh from the constructor;
    reading [id] throws as well. *)
Theorem updateFrom_throws_unimplemented updatedModel viewingAreaModel this w :
  updateFrom updatedModel this w = (Throw Unimplemented, w) ∧
  (this ← new viewingAreaModel; updateFrom updatedModel this) w
    = (Throw Unimplemented, w) ∧
  get_id this w = (Throw Unimplemented, w).
Proof.
  assert (updateFrom updatedModel this w = (Throw Unimplemented, w)) as Hupdate.
  { unfold updateFrom. by apply bind_Throw. }
  split_and!; [done| |done].
  unfold new. by rewrite bind_ret.
Qed.

(** C4 (the code departs from the claim).  Each of the three setters throws
    [Unimplemented] whatever value it is given, the current one included, and
    so does each getter. *)
Theorem setters_throw_unimplemented this w (newVideo : option string)
    (newTime : Q) (newIsPlaying : bool) :
  set_video newVideo this w = (Throw Unimplemented, w) ∧
  set_elapsedTimeSec newTime this w = (Throw Unimplemented, w) ∧
  set_isPlaying newIsPlaying this w = (Throw Unimplemented, w) ∧
  get_video this w = (Throw Unimplemented, w) ∧
  get_elapsedTimeSec this w = (Throw Unimplemented, w) ∧
  get_isPlaying this w = (Throw Unimplemented, w).
Proof. by split_and!. Qed.

End ViewingArea.

(** ** Binary64: comparing is comparing the exact values *)
Section Order.
Local Open Scope Z_scope.






End Order.


(** ** ViewingAreaVideo: drift tolerance *)
Section Video.
Import ViewingAreaVideo.
Implicit Types (player : ReactPlayer) (newTime : float).







(** Before the player is mounted ([reactPlayerRef.current] is [null]) the
    handler does nothing. *)
Lemma updateTimecode_unmounted newTime : updateTimecode None newTime = None.
Proof. reflexivity. Qed.

End Video.

(** ** ConversationAreaController: what the setters do in every world *)
Section Setters.
Import ConversationAreaController.
Implicit Types (this : t) (w : World) (r : ArrayRef)
  (cur new : list PlayerController).

Lemma occupants_changed_differs this w r : occupants_changed this w r ≠ (Normal this, w).
Proof.
  unfold occupants_changed. intros [= _ Hw]. apply (f_equal log) in Hw. simpl in Hw.
  apply (f_equal length) in Hw. rewrite length_app in Hw. simpl in Hw. lia.
Qed.

(** [set occupants] in full: a [TypeError] when either reference denotes no
    array, and otherwise one of the two endings. *)
Lemma set_occupants_cases this w r :
  set_occupants r this w =
    match arrays w !! _occupants this, arrays w !! r with
    | Some cur, Some new =>
        if same_occupants cur new then (Normal this, w) else occupants_changed this w r
    | _, _ => (Throw (TypeError "Cannot read properties of undefined"), w)
    end.
Proof.
  destruct (arrays w !! _occupants this) as [cur|] eqn:Hcur;
    [destruct (arrays w !! r) as [new|] eqn:Hnew|].
  - destruct (same_occupants cur new) eqn:Hsame.
    + by apply (set_occupants_unchanged _ _ _ cur new).
    + by apply (set_occupants_changed _ _ _ cur new).
  - unfold set_occupants, _isSameOccupantsList, get_occupants.
    apply bind_Throw. rewrite bind_ret.
    rewrite (bind_Normal _ _ _ _ _ (array_length_live _ _ _ Hcur)).
    apply bind_Throw. unfold array_length. apply bind_Throw.
    unfold read_array. by rewrite Hnew.
  - unfold set_occupants, _isSameOccupantsList, get_occupants.
    apply bind_Throw. rewrite bind_ret.
    apply bind_Throw. unfold array_length. apply bind_Throw.
    unfold read_array. by rewrite Hcur.
Qed.

Lemma set_occupants_noop_iff this w r cur new :
  arrays w !! _occupants this = Some cur →
  arrays w !! r = Some new →
  set_occupants r this w = (Normal this, w)
    ↔ length cur = length new ∧ ∀ p, p ∈ new → p ∈ cur.
Proof.
  intros Hcur Hnew. rewrite set_occupants_cases, Hcur, Hnew.
  rewrite <-same_occupants_true.
  destruct (same_occupants cur new); [done|].
  split; [|done]. intros Heq. by apply occupants_changed_differs in Heq.
Qed.

(** X1.  The exact criterion of [set occupants] on two arrays: it is a no-op
    when the lengths are equal and every element of the new array is an
    element of the stored one, and in every other case it stores the new
    reference and emits [occupantsChange] once; the two endings differ. *)
Theorem set_occupants_criterion this w r cur new :
  arrays w !! _occupants this = Some cur →
  arrays w !! r = Some new →
  (set_occupants r this w = (Normal this, w)
     ↔ length cur = length new ∧ ∀ p, p ∈ new → p ∈ cur) ∧
  (set_occupants r this w = occupants_changed this w r
     ↔ ¬ (length cur = length new ∧ ∀ p, p ∈ new → p ∈ cur)).
Proof.
  intros Hcur Hnew. split; [by apply set_occupants_noop_iff|].
  rewrite <-(set_occupants_noop_iff this w r cur new Hcur Hnew).
  rewrite set_occupants_cases, Hcur, Hnew.
  pose proof (occupants_changed_differs this w r) as Hdiff.
  destruct (same_occupants cur new).
  - split; [intros Heq; by symmetry in Heq | intros Hne; by destruct Hne].
  - done.
Qed.

Lemma set_occupants_criterion_witness :
  set_occupants 3%positive Fixtures.testArea Fixtures.world
    = occupants_changed Fixtures.testArea Fixtures.world 3%positive.
Proof.
  apply (set_occupants_criterion Fixtures.testArea Fixtures.world 3%positive
           [Fixtures.alice; Fixtures.bob; Fixtures.carol]
           [mkPlayer 4 "dave"; mkPlayer 5 "erin"; mkPlayer 6 "frank"]).
  - reflexivity.
  - reflexivity.
  - intros [_ Hall]. specialize (Hall (mkPlayer 4 "dave")).
    assert (mkPlayer 4 "dave" ∈ [Fixtures.alice; Fixtures.bob; Fixtures.carol]) as Hin.
    { apply Hall. by left. }
    repeat (apply elem_of_cons in Hin as [Heq|Hin]; [discriminate Heq|]).
    by apply elem_of_nil in Hin.
Defined.

(** X2.  When the assigned array repeats no reference, the change detection
    is exact: [set occupants] is a no-op if and only if the new elements are a
    permutation of the stored ones. *)
Theorem set_occupants_exact_without_duplicates this w r cur new :
  arrays w !! _occupants this = Some cur →
  arrays w !! r = Some new →
  NoDup new →
  set_occupants r this w = (Normal this, w) ↔ new ≡ₚ cur.
Proof.
  intros Hcur Hnew Hnodup.
  rewrite (set_occupants_noop_iff this w r cur new Hcur Hnew). split.
  - intros [Hlen Hall]. apply submseteq_length_Permutation.
    + by apply NoDup_submseteq.
    + by rewrite Hlen.
  - intros Hperm. split.
    + symmetry. by apply Permutation_length.
    + intros p Hp. by rewrite <-Hperm.
Qed.

Lemma set_occupants_exact_without_duplicates_witness :
  set_occupants 2%positive Fixtures.testArea Fixtures.world
    = (Normal Fixtures.testArea, Fixtures.world)
  ↔ [Fixtures.carol; Fixtures.alice; Fixtures.bob]
      ≡ₚ [Fixtures.alice; Fixtures.bob; Fixtures.carol].
Proof.
  apply (set_occupants_exact_without_duplicates Fixtures.testArea Fixtures.world
           2%positive).
  - reflexivity.
  - reflexivity.
  - apply (bool_decide_unpack (NoDup [Fixtures.carol; Fixtures.alice; Fixtures.bob])).
    by vm_compute.
Defined.

(** X3.  A change made in place to the stored array goes unnoticed: after the
    array is given any new contents, assigning it to [occupants] again stores
    nothing and emits nothing, while [toConversationAreaModel] reports the ids
    of the new contents. *)
Theorem in_place_change_unnoticed this w elems :
  (_ ← Client.write_array (_occupants this) elems;
   this' ← set_occupants (_occupants this) this;
   toConversationAreaModel this') w =
  (Normal (mkConversationAreaModel (_id this) (_topic this) (player_id <$> elems)),
   mkWorld (<[_occupants this := elems]> (arrays w)) (log w)).
Proof.
  set (w1 := mkWorld (<[_occupants this := elems]> (arrays w)) (log w)).
  assert (arrays w1 !! _occupants this = Some elems) as Hlive
    by apply lookup_insert_eq.
  rewrite (bind_Normal _ _ _ () w1) by done.
  rewrite (bind_Normal _ _ _ _ _ (set_occupants_stored_reference _ _ _ Hlive)).
  by apply toConversationAreaModel_live.
Qed.

(** X4.  Both setters are idempotent: the same assignment made twice in a row
    ends as the single assignment does (the second one stores nothing and
    emits nothing), in every world. *)
Theorem setters_idempotent this w newTopic r :
  (this' ← set_topic newTopic this; set_topic newTopic this') w
    = set_topic newTopic this w ∧
  (this' ← set_occupants r this; set_occupants r this') w
    = set_occupants r this w.
Proof.
  split.
  - destruct (decide (newTopic = _topic this)) as [->|Hne].
    + by rewrite (bind_Normal _ _ _ _ _ (set_topic_unchanged this w)).
    + rewrite (bind_Normal _ _ _ _ _ (set_topic_changed this w newTopic Hne)).
      rewrite (set_topic_changed this w newTopic Hne).
      apply (set_topic_unchanged (with_topic newTopic this)).
  - rewrite (set_occupants_cases this w r).
    destruct (arrays w !! _occupants this) as [cur|] eqn:Hcur;
      [destruct (arrays w !! r) as [new|] eqn:Hnew|].
    + destruct (same_occupants cur new) eqn:Hsame.
      * rewrite (bind_Normal _ _ _ _ _ (set_occupants_unchanged _ _ _ _ _ Hcur Hnew Hsame)).
        by apply (set_occupants_unchanged _ _ _ cur new).
      * rewrite (bind_Normal _ _ _ _ _ (set_occupants_changed _ _ _ _ _ Hcur Hnew Hsame)).
        by apply (set_occupants_stored_reference (with_occupants r this) _ new).
    + apply bind_Throw. by rewrite set_occupants_cases, Hcur, Hnew.
    + apply bind_Throw. by rewrite set_occupants_cases, Hcur.
Qed.

End Setters.

(** ** ConversationAreaController: the footprint of the class *)
Section Footprint.
Import ConversationAreaController.
Implicit Types (this : t) (w : World) (r : ArrayRef).


Lemma keeps_arrays_throw {A} e : keeps_arrays (@throw A e).
Proof. intros w. split; [done|]. exists []. simpl. by rewrite app_nil_r. Qed.












End Footprint.

(** ** Sequences of assignments, and the hooks that listen to them *)
Section Sequences.
Import ConversationAreaController Client ConversationAreaHooks.
Implicit Types (this area : t) (w : World) (l : Listener) (steps : list Step).

Lemma bind_Normal_inv {A B} (c : Js A) (k : A → Js B) w b w' :
  (c ≫= k) w = (Normal b, w') →
  ∃ a w1, c w = (Normal a, w1) ∧ k a w1 = (Normal b, w').
Proof.
  unfold mbind, Js_bind. destruct (c w) as [[a|e] w1]; [|done].
  intros Hk. by exists a, w1.
Qed.

(** How a step that returns ends: nothing stored and nothing logged (a no-op
    assignment, or a write to an array), a new topic stored and emitted, or a
    new occupants reference stored and emitted. *)
Lemma step_cases s this w this' w' :
  step s this w = (Normal this', w') →
  (this' = this ∧ log w' = log w) ∨
  (∃ newTopic, this' = with_topic newTopic this ∧
     log w' = log w ++ calls (topicChange newTopic) (emitter this)) ∨
  (∃ r, this' = with_occupants r this ∧
     log w' = log w ++ calls (occupantsChange r) (emitter this)).
Proof.
  destruct s as [newTopic|r|r elems]; simpl.
  - destruct (decide (newTopic = _topic this)) as [->|Hne].
    + rewrite set_topic_unchanged. intros [= <- <-]. by left.
    + rewrite (set_topic_changed _ _ _ Hne). intros [= <- <-]. right. left. by eexists.
  - rewrite set_occupants_cases.
    destruct (arrays w !! _occupants this) as [cur|]; [|done].
    destruct (arrays w !! r) as [new|]; [|done].
    destruct (same_occupants cur new).
    + intros [= <- <-]. by left.
    + intros [= <- <-]. right. right. by eexists.
  - intros [= <- <-]. by left.
Qed.

Lemma run_cons_inv s steps this w this' w' :
  run (s :: steps) this w = (Normal this', w') →
  ∃ this1 w1, step s this w = (Normal this1, w1) ∧ run steps this1 w1 = (Normal this', w').
Proof. apply bind_Normal_inv. Qed.

(** X6.  No sequence of assignments and array writes changes the id of the
    controller or its subscriptions, and the log only grows. *)
Theorem run_keeps_identity steps this w this' w' :
  run steps this w = (Normal this', w') →
  _id this' = _id this ∧ emitter this' = emitter this ∧
  ∃ entries, log w' = log w ++ entries.
Proof.
  revert this w. induction steps as [|s steps IH]; intros this w.
  - intros [= <- <-]. split_and!; [done..|]. exists []. by rewrite app_nil_r.
  - intros (this1 & w1 & Hstep & Hrun)%run_cons_inv.
    destruct (IH _ _ Hrun) as (Hid & Hem & entries & Hlog).
    apply step_cases in Hstep as [[-> Hlog1]|[(t & -> & Hlog1)|(r & -> & Hlog1)]];
      (split_and!; [done..|]); rewrite Hlog, Hlog1.
    + by eexists.
    + eexists. by rewrite <-app_assoc.
    + eexists. by rewrite <-app_assoc.
Qed.

Lemma run_keeps_identity_witness :
  _id (with_topic None (with_occupants 3%positive Fixtures.testArea)) = _id Fixtures.testArea ∧
  emitter (with_topic None (with_occupants 3%positive Fixtures.testArea))
    = emitter Fixtures.testArea ∧
  ∃ entries,
    [Emit (occupantsChange 3%positive); Call 0 (occupantsChange 3%positive);
     Emit (topicChange None); Call 1 (topicChange None)] = [] ++ entries.
Proof.
  apply (run_keeps_identity
           [AssignOccupants 3%positive; AssignOccupants 3%positive; AssignTopic None]
           Fixtures.testArea Fixtures.world
           (with_topic None (with_occupants 3%positive Fixtures.testArea))
           (mkWorld Fixtures.heap
              [Emit (occupantsChange 3%positive); Call 0 (occupantsChange 3%positive);
               Emit (topicChange None); Call 1 (topicChange None)])).
  by vm_compute.
Defined.

(** *** [useConversationAreaTopic] *)

Lemma topic_or_no_topic_cases (topic : option string) :
  topic_or_no_topic topic =
    match topic with
    | Some "" | None => NO_TOPIC_STRING
    | Some s => s
    end.
Proof.
  destruct topic as [s|]; [|done]. unfold topic_or_no_topic. simpl.
  case_bool_decide as Hs; [by subst | by destruct s].
Qed.

Lemma useConversationAreaTopic_initial_spec area w :
  useConversationAreaTopic_initial area w = (Normal (topic_or_no_topic (_topic area)), w).
Proof.
  unfold useConversationAreaTopic_initial, get_topic, topic_or_no_topic.
  rewrite bind_ret. destruct (truthy (_topic area)); [by rewrite bind_ret|done].
Qed.

Lemma topic_after_app l entries entries' state :
  topic_after l (entries ++ entries') state
    = topic_after l entries' (topic_after l entries state).
Proof. apply foldl_app. Qed.

Lemma topic_after_calls_topicChange l newTopic (ls : list Listener) state :
  topic_after l ((λ l', Call l' (topicChange newTopic)) <$> ls) state =
    if decide (l ∈ ls) then updateTopic newTopic else state.
Proof.
  revert state. induction ls as [|l' ls IH]; intros state.
  - destruct (decide (l ∈ [])) as [Hin|]; [by apply elem_of_nil in Hin | done].
  - rewrite fmap_cons. unfold topic_after in *. simpl. rewrite IH.
    destruct (decide (l ∈ l' :: ls)) as [Hin|Hnin];
      destruct (decide (l ∈ ls)) as [Hin'|Hnin']; try done.
    + destruct (decide (l' = l)) as [|Hne]; [done|].
      apply elem_of_cons in Hin as [?|?]; congruence.
    + exfalso. apply Hnin. by right.
    + destruct (decide (l' = l)) as [->|]; [|done]. exfalso. apply Hnin. by left.
Qed.

Lemma topic_after_calls_occupantsChange l r (ls : list Listener) state :
  topic_after l ((λ l', Call l' (occupantsChange r)) <$> ls) state = state.
Proof. revert state. induction ls as [|l' ls IH]; intros state; [done|apply IH]. Qed.

(** One step keeps a subscribed topic hook in step with the controller. *)
Lemma topic_in_sync_step s this w this' w' l :
  l ∈ EventEmitter.listeners "topicChange" (emitter this) →
  step s this w = (Normal this', w') →
  emitter this' = emitter this ∧
  ∃ entries, log w' = log w ++ entries ∧
    topic_after l entries (topic_or_no_topic (_topic this))
      = topic_or_no_topic (_topic this').
Proof.
  intros Hl [[-> Hlog]|[(t & -> & Hlog)|(r & -> & Hlog)]]%step_cases;
    (split; [done|]).
  - exists []. by rewrite app_nil_r.
  - eexists. split; [exact Hlog|]. unfold calls. simpl.
    change (foldl (topic_called l) ?s ?es) with (topic_after l es s).
    rewrite topic_after_calls_topicChange. by rewrite decide_True.
  - eexists. split; [exact Hlog|]. unfold calls. simpl.
    change (foldl (topic_called l) ?s ?es) with (topic_after l es s).
    by rewrite topic_after_calls_occupantsChange.
Qed.

Lemma topic_in_sync_run steps this w this' w' l :
  l ∈ EventEmitter.listeners "topicChange" (emitter this) →
  run steps this w = (Normal this', w') →
  ∃ entries, log w' = log w ++ entries ∧
    topic_after l entries (topic_or_no_topic (_topic this))
      = topic_or_no_topic (_topic this').
Proof.
  revert this w. induction steps as [|s steps IH]; intros this w Hl.
  - intros [= <- <-]. exists []. by rewrite app_nil_r.
  - intros (this1 & w1 & Hstep & Hrun)%run_cons_inv.
    destruct (topic_in_sync_step _ _ _ _ _ _ Hl Hstep) as (Hem & entries & Hlog & Hsync).
    rewrite <-Hem in Hl.
    destruct (IH _ _ Hl Hrun) as (entries' & Hlog' & Hsync').
    exists (entries ++ entries'). split.
    + by rewrite Hlog', Hlog, app_assoc.
    + by rewrite topic_after_app, Hsync.
Qed.

(** X7.  [useConversationAreaTopic] stays in step with the controller: from
    its initial state, with its effect's listener subscribed, after any
    sequence of assignments and array writes the state that the recorded calls
    of [updateTopic] leave is the current topic, or [NO_TOPIC_STRING] when the
    topic is absent or empty - what the hook would show if it were mounted
    anew. *)
Theorem useConversationAreaTopic_in_sync steps area w state w0 area' w' l :
  useConversationAreaTopic_initial area w = (Normal state, w0) →
  run steps (effect "topicChange" l area) w0 = (Normal area', w') →
  ∃ entries, log w' = log w ++ entries ∧
    topic_after l entries state = topic_or_no_topic (_topic area') ∧
    useConversationAreaTopic_initial area' w' = (Normal (topic_after l entries state), w').
Proof.
  rewrite useConversationAreaTopic_initial_spec. intros [= <- <-] Hrun.
  destruct (topic_in_sync_run steps (effect "topicChange" l area) w area' w' l)
    as (entries & Hlog & Hsync); [|done|].
  - unfold effect. simpl. rewrite listeners_addListener.
    rewrite decide_True by done. apply elem_of_app. right. by left.
  - simpl in Hsync. exists entries. split_and!; [done..|].
    by rewrite useConversationAreaTopic_initial_spec, Hsync.
Qed.

Lemma useConversationAreaTopic_in_sync_witness :
  ∃ entries,
    [Emit (topicChange (Some "")); Call 1 (topicChange (Some ""));
     Call 7 (topicChange (Some ""))] = [] ++ entries ∧
    topic_after 7 entries "fruits" = topic_or_no_topic (Some "") ∧
    useConversationAreaTopic_initial
      (with_topic (Some "") (effect "topicChange" 7 Fixtures.testArea))
      (mkWorld Fixtures.heap
         [Emit (topicChange (Some "")); Call 1 (topicChange (Some ""));
          Call 7 (topicChange (Some ""))])
    = (Normal (topic_after 7 entries "fruits"),
       mkWorld Fixtures.heap
         [Emit (topicChange (Some "")); Call 1 (topicChange (Some ""));
          Call 7 (topicChange (Some ""))]).
Proof.
  apply (useConversationAreaTopic_in_sync
           [AssignTopic (Some "fruits"); AssignTopic (Some "")]
           Fixtures.testArea Fixtures.world "fruits" Fixtures.world
           (with_topic (Some "") (effect "topicChange" 7 Fixtures.testArea))
           (mkWorld Fixtures.heap
              [Emit (topicChange (Some "")); Call 1 (topicChange (Some ""));
               Call 7 (topicChange (Some ""))])
           7).
  - by vm_compute.
  - by vm_compute.
Defined.

(** *** [useConversationAreaOccupants] *)

Lemma occupants_after_app l entries entries' state :
  occupants_after l (entries ++ entries') state
    = occupants_after l entries' (occupants_after l entries state).
Proof. apply foldl_app. Qed.

Lemma occupants_after_calls_occupantsChange l r (ls : list Listener) state :
  occupants_after l ((λ l', Call l' (occupantsChange r)) <$> ls) state =
    if decide (l ∈ ls) then updateOccupants r else state.
Proof.
  revert state. induction ls as [|l' ls IH]; intros state.
  - destruct (decide (l ∈ [])) as [Hin|]; [by apply elem_of_nil in Hin | done].
  - rewrite fmap_cons. unfold occupants_after in *. simpl. rewrite IH.
    destruct (decide (l ∈ l' :: ls)) as [Hin|Hnin];
      destruct (decide (l ∈ ls)) as [Hin'|Hnin']; try done.
    + destruct (decide (l' = l)) as [|Hne]; [done|].
      apply elem_of_cons in Hin as [?|?]; congruence.
    + exfalso. apply Hnin. by right.
    + destruct (decide (l' = l)) as [->|]; [|done]. exfalso. apply Hnin. by left.
Qed.

Lemma occupants_after_calls_topicChange l newTopic (ls : list Listener) state :
  occupants_after l ((λ l', Call l' (topicChange newTopic)) <$> ls) state = state.
Proof. revert state. induction ls as [|l' ls IH]; intros state; [done|apply IH]. Qed.

Lemma occupants_in_sync_run steps this w this' w' l :
  l ∈ EventEmitter.listeners "occupantsChange" (emitter this) →
  run steps this w = (Normal this', w') →
  ∃ entries, log w' = log w ++ entries ∧
    occupants_after l entries (_occupants this) = _occupants this'.
Proof.
  revert this w. induction steps as [|s steps IH]; intros this w Hl.
  - intros [= <- <-]. exists []. by rewrite app_nil_r.
  - intros (this1 & w1 & Hstep & Hrun)%run_cons_inv.
    assert (emitter this1 = emitter this ∧
            ∃ entries, log w1 = log w ++ entries ∧
              occupants_after l entries (_occupants this) = _occupants this1)
      as (Hem & entries & Hlog & Hsync).
    { apply step_cases in Hstep as [[-> Hlog]|[(t & -> & Hlog)|(r & -> & Hlog)]];
        (split; [done|]).
      - exists []. by rewrite app_nil_r.
      - eexists. split; [exact Hlog|]. unfold calls. simpl.
        change (foldl (occupants_called l) ?s ?es) with (occupants_after l es s).
        by rewrite occupants_after_calls_topicChange.
      - eexists. split; [exact Hlog|]. unfold calls. simpl.
        change (foldl (occupants_called l) ?s ?es) with (occupants_after l es s).
        rewrite occupants_after_calls_occupantsChange. by rewrite decide_True. }
    rewrite <-Hem in Hl.
    destruct (IH _ _ Hl Hrun) as (entries' & Hlog' & Hsync').
    exists (entries ++ entries'). split.
    + by rewrite Hlog', Hlog, app_assoc.
    + by rewrite occupants_after_app, Hsync.
Qed.

(** X8.  [useConversationAreaOccupants] stays in step with the controller:
    from its initial state, with its effect's listener subscribed, after any
    sequence of assignments and array writes the state that the recorded calls
    of [updateOccupants] leave is the very reference the controller has
    stored. *)
Theorem useConversationAreaOccupants_in_sync steps area w state w0 area' w' l :
  useConversationAreaOccupants_initial area w = (Normal state, w0) →
  run steps (effect "occupantsChange" l area) w0 = (Normal area', w') →
  ∃ entries, log w' = log w ++ entries ∧
    occupants_after l entries state = _occupants area' ∧
    useConversationAreaOccupants_initial area' w'
      = (Normal (occupants_after l entries state), w').
Proof.
  intros [= <- <-] Hrun.
  destruct (occupants_in_sync_run steps (effect "occupantsChange" l area) w area' w' l)
    as (entries & Hlog & Hsync); [|done|].
  - unfold effect. simpl. rewrite listeners_addListener.
    rewrite decide_True by done. apply elem_of_app. right. by left.
  - simpl in Hsync. exists entries. split_and!; [done..|].
    unfold useConversationAreaOccupants_initial, get_occupants. by rewrite Hsync.
Qed.

Lemma useConversationAreaOccupants_in_sync_witness :
  ∃ entries,
    [Emit (occupantsChange 3%positive); Call 0 (occupantsChange 3%positive);
     Call 7 (occupantsChange 3%positive)] = [] ++ entries ∧
    occupants_after 7 entries 1%positive = 3%positive ∧
    useConversationAreaOccupants_initial
      (with_occupants 3%positive (effect "occupantsChange" 7 Fixtures.testArea))
      (mkWorld (<[3%positive := [Fixtures.alice]]> Fixtures.heap)
         [Emit (occupantsChange 3%positive); Call 0 (occupantsChange 3%positive);
          Call 7 (occupantsChange 3%positive)])
    = (Normal (occupants_after 7 entries 1%positive),
       mkWorld (<[3%positive := [Fixtures.alice]]> Fixtures.heap)
         [Emit (occupantsChange 3%positive); Call 0 (occupantsChange 3%positive);
          Call 7 (occupantsChange 3%positive)]).
Proof.
  apply (useConversationAreaOccupants_in_sync
           [AssignOccupants 2%positive; AssignOccupants 3%positive;
            WriteArray 3%positive [Fixtures.alice]; AssignOccupants 3%positive]
           Fixtures.testArea Fixtures.world 1%positive Fixtures.world
           (with_occupants 3%positive (effect "occupantsChange" 7 Fixtures.testArea))
           (mkWorld (<[3%positive := [Fixtures.alice]]> Fixtures.heap)
              [Emit (occupantsChange 3%positive); Call 0 (occupantsChange 3%positive);
               Call 7 (occupantsChange 3%positive)])
           7).
  - by vm_compute.
  - by vm_compute.
Defined.

(** *** Unsubscribing *)

Lemma removeListener_addListener eventName l (e : EventEmitter.t) :
  EventEmitter.removeListener eventName l (EventEmitter.addListener eventName l e) = e.
Proof.
  destruct e as [regs]. unfold EventEmitter.removeListener, EventEmitter.addListener.
  simpl. rewrite reverse_snoc. simpl. rewrite decide_True by done.
  by rewrite reverse_involutive.
Qed.

Lemma calls_only_subscribers ev (e : EventEmitter.t) l ev' :
  Call l ev' ∈ calls ev e → l ∈ EventEmitter.listeners (event_name ev) e.
Proof.
  unfold calls. intros [Heq|Hin]%elem_of_cons; [done|].
  apply list_elem_of_fmap in Hin as (l' & [= -> _] & Hl'). done.
Qed.

Lemma silent_run steps this w this' w' l :
  (∀ eventName, l ∉ EventEmitter.listeners eventName (emitter this)) →
  run steps this w = (Normal this', w') →
  ∃ entries, log w' = log w ++ entries ∧ ∀ ev, Call l ev ∉ entries.
Proof.
  revert this w. induction steps as [|s steps IH]; intros this w Hl.
  - intros [= <- <-]. exists []. split; [by rewrite app_nil_r|].
    intros ev. apply not_elem_of_nil.
  - intros (this1 & w1 & Hstep & Hrun)%run_cons_inv.
    assert (emitter this1 = emitter this ∧
            ∃ entries, log w1 = log w ++ entries ∧ ∀ ev, Call l ev ∉ entries)
      as (Hem & entries & Hlog & Hsilent).
    { apply step_cases in Hstep as [[-> Hlog]|[(t & -> & Hlog)|(r & -> & Hlog)]];
        (split; [done|]).
      - exists []. split; [by rewrite app_nil_r|]. intros ev. apply not_elem_of_nil.
      - eexists. split; [exact Hlog|]. intros ev Hin%calls_only_subscribers.
        by apply Hl in Hin.
      - eexists. split; [exact Hlog|]. intros ev Hin%calls_only_subscribers.
        by apply Hl in Hin. }
    rewrite <-Hem in Hl.
    destruct (IH _ _ Hl Hrun) as (entries' & Hlog' & Hsilent').
    exists (entries ++ entries'). split; [by rewrite Hlog', Hlog, app_assoc|].
    intros ev [Hin|Hin]%elem_of_app; [by apply Hsilent in Hin | by apply Hsilent' in Hin].
Qed.

(** X9.  The cleanup of a hook undoes its effect: subscribing a listener and
    removing it again leaves the controller exactly as it was, other
    subscriptions and their order included; and when the listener was not
    subscribed before, no later sequence of assignments calls it. *)
Theorem cleanup_undoes_effect steps area w area' w' eventName l :
  (∀ name, l ∉ EventEmitter.listeners name (emitter area)) →
  run steps (cleanup eventName l (effect eventName l area)) w = (Normal area', w') →
  cleanup eventName l (effect eventName l area) = area ∧
  ∃ entries, log w' = log w ++ entries ∧ ∀ ev, Call l ev ∉ entries.
Proof.
  assert (cleanup eventName l (effect eventName l area) = area) as ->.
  { destruct area as [e id topic occupants]. unfold cleanup, effect, removeListener,
      addListener. simpl. by rewrite removeListener_addListener. }
  intros Hl Hrun. split; [done|]. by apply (silent_run steps area w area' w').
Qed.

Lemma cleanup_undoes_effect_witness :
  cleanup "topicChange" 7 (effect "topicChange" 7 Fixtures.testArea) = Fixtures.testArea ∧
  ∃ entries,
    [Emit (topicChange None); Call 1 (topicChange None)] = [] ++ entries ∧
    ∀ ev, Call 7 ev ∉ entries.
Proof.
  apply (cleanup_undoes_effect [AssignTopic None] Fixtures.testArea Fixtures.world
           (with_topic None Fixtures.testArea)
           (mkWorld Fixtures.heap [Emit (topicChange None); Call 1 (topicChange None)])
           "topicChange" 7).
  - intros name Hin. unfold EventEmitter.listeners in Hin. simpl in Hin.
    apply list_elem_of_fmap in Hin as ([n l'] & Heq & Hin). simpl in Heq. subst l'.
    apply list_elem_of_filter in Hin as [_ Hin].
    repeat (apply elem_of_cons in Hin as [Heq|Hin]; [by inversion Heq|]).
    by apply elem_of_nil in Hin.
  - by vm_compute.
Defined.

End Sequences.

(** ** The topic shown, the model rebuilt, the video kept *)
Section Display.
Import ConversationAreaController ConversationAreaHooks.
Implicit Types (area : t) (w : World).

(** X10.  What [useConversationAreaTopic] shows at first, against [isEmpty]:
    the string shown is never empty; it is [NO_TOPIC_STRING] exactly when the
    topic is absent, the empty string, or that very string; an area that has
    occupants and is empty by [isEmpty] shows [NO_TOPIC_STRING]; but an area
    with occupants whose topic is the empty string shows [NO_TOPIC_STRING]
    while [isEmpty] answers [false]. *)
Theorem topic_shown_and_isEmpty area w occupants :
  arrays w !! _occupants area = Some occupants →
  ∃ shown b,
    useConversationAreaTopic_initial area w = (Normal shown, w) ∧
    isEmpty area w = (Normal b, w) ∧
    shown ≠ "" ∧
    (shown = NO_TOPIC_STRING ↔
       _topic area = None ∨ _topic area = Some "" ∨ _topic area = Some NO_TOPIC_STRING) ∧
    (occupants ≠ [] → b = true → shown = NO_TOPIC_STRING) ∧
    (occupants ≠ [] → _topic area = Some "" → b = false ∧ shown = NO_TOPIC_STRING).
Proof.
  intros Hocc. eexists _, _. split; [apply useConversationAreaTopic_initial_spec|].
  split; [by apply isEmpty_live|].
  rewrite topic_or_no_topic_cases.
  assert (length occupants = 0 ↔ occupants = []) as Hlen
    by (destruct occupants; naive_solver).
  destruct (_topic area) as [[|c s]|] eqn:Htopic; simpl.
  - split_and!; [done| |done|].
    + split; [by right; left | done].
    + intros Hne _. split; [|done]. apply bool_decide_eq_false. by rewrite Hlen.
  - split_and!; [done| | |done].
    + split; [intros ->; by right; right | intros [?|[?|?]]; congruence].
    + intros Hne Hb. apply bool_decide_eq_true in Hb. by apply Hlen in Hb.
  - split_and!; [done| |done|done]. split; [by left | done].
Qed.

Lemma topic_shown_and_isEmpty_witness :
  ∃ shown b,
    useConversationAreaTopic_initial (with_topic (Some "") Fixtures.testArea) Fixtures.world
      = (Normal shown, Fixtures.world) ∧
    isEmpty (with_topic (Some "") Fixtures.testArea) Fixtures.world
      = (Normal b, Fixtures.world) ∧
    shown ≠ "" ∧
    (shown = NO_TOPIC_STRING ↔
       Some "" = None ∨ Some "" = Some "" ∨ Some "" = Some NO_TOPIC_STRING) ∧
    ([Fixtures.alice; Fixtures.bob; Fixtures.carol] ≠ [] → b = true →
       shown = NO_TOPIC_STRING) ∧
    ([Fixtures.alice; Fixtures.bob; Fixtures.carol] ≠ [] → Some "" = Some "" →
       b = false ∧ shown = NO_TOPIC_STRING).
Proof.
  apply (topic_shown_and_isEmpty (with_topic (Some "") Fixtures.testArea) Fixtures.world
           [Fixtures.alice; Fixtures.bob; Fixtures.carol]).
  reflexivity.
Defined.

(** X11.  The trip of a model through a controller keeps what [playerFinder]
    found, not what the model listed: [toConversationAreaModel] of
    [fromConversationAreaModel m playerFinder] has the id and the topic of [m]
    and, as [occupantsByID], the ids of the players in the array that
    [playerFinder] returned, in its order - ids that it did not resolve are
    gone.  ([playerFinder] leaves the new controller's own array alone.) *)
Theorem round_trip_keeps_found_players m playerFinder w ret w1 found w2 players :
  new (area_id m) (area_topic m) w = (Normal ret, w1) →
  playerFinder (occupantsByID m) w1 = (Normal found, w2) →
  arrays w2 !! found = Some players →
  arrays w2 !! _occupants ret = Some [] →
  ∃ w3, (this ← fromConversationAreaModel m playerFinder;
         toConversationAreaModel this) w =
        (Normal (mkConversationAreaModel (area_id m) (area_topic m)
                   (player_id <$> players)), w3).
Proof.
  intros Hnew Hfind Hfound Hown.
  destruct (new_fresh _ _ _ _ _ Hnew) as (Hem & Hid & Htopic & _ & _).
  pose proof (fromConversationAreaModel_steps _ _ _ _ _ _ _ Hnew Hfind) as Hfrom.
  rewrite set_occupants_cases, Hown, Hfound in Hfrom.
  destruct (same_occupants [] players) eqn:Hsame.
  - pose proof Hsame as [Hlen _]%same_occupants_true.
    destruct players; [|done].
    exists w2. rewrite (bind_Normal _ _ _ _ _ Hfrom).
    rewrite (toConversationAreaModel_live _ _ _ Hown). by rewrite Hid, Htopic.
  - eexists. rewrite (bind_Normal _ _ _ _ _ Hfrom).
    erewrite toConversationAreaModel_live by exact Hfound.
    simpl. by rewrite Hid, Htopic.
Qed.

Lemma round_trip_keeps_found_players_witness :
  ∃ w3, (this ← fromConversationAreaModel
                   (mkConversationAreaModel "area-3" None ["zed"; "bob"; "alice"; "bob"])
                   Fixtures.playerFinder;
         toConversationAreaModel this) Fixtures.world =
        (Normal (mkConversationAreaModel "area-3" None ["alice"; "bob"]), w3).
Proof.
  apply (round_trip_keeps_found_players
           (mkConversationAreaModel "area-3" None ["zed"; "bob"; "alice"; "bob"])
           Fixtures.playerFinder Fixtures.world
           (mk EventEmitter.new "area-3" None 7%positive)
           (mkWorld (<[7%positive := []]> Fixtures.heap) [])
           8%positive
           (mkWorld (<[8%positive := [Fixtures.alice; Fixtures.bob]]>
                       (<[7%positive := []]> Fixtures.heap)) [])
           [Fixtures.alice; Fixtures.bob]).
  - by vm_compute.
  - by vm_compute.
  - by vm_compute.
  - by vm_compute.
Defined.

End Display.

Section Component.
Import ViewingAreaComponent.
Implicit Types (s : State) (inputs : list Input).

Lemma react_cases i s :
  react i s =
    if ends_interaction i then (s, [endIteraction])
    else match i with
         | VideoChange url => (mkState (selectIsOpen s) url, [])
         | Close => (close s, [])
         end.
Proof. destruct i as [url|]; [|done]. simpl. unfold setURL. by destruct (truthy url). Qed.

(** X12.  The [ViewingArea] component, over any sequence of [videoChange]
    events and closings of the modal: once it shows the video it never goes
    back to the selection modal (a [videoChange] without a video only ends the
    interaction, the URL is kept); the modal, once closed, is never opened
    again; and [endIteraction] is emitted once for each [videoChange] whose
    payload is falsy ([undefined] or the empty string), and never otherwise. *)
Theorem viewing_area_keeps_video inputs s s' out :
  react_all inputs s = (s', out) →
  (render s = ViewingAreaVideo → render s' = ViewingAreaVideo) ∧
  (selectIsOpen s = false → selectIsOpen s' = false) ∧
  out = replicate (length (filter (λ i, ends_interaction i = true) inputs)) endIteraction.
Proof.
  revert s s' out. induction inputs as [|i inputs IH]; intros s s' out; simpl.
  - by intros [= <- <-].
  - destruct (react i s) as [s1 out1] eqn:Hreact.
    destruct (react_all inputs s1) as [s2 out2] eqn:Hrest.
    intros [= <- <-]. destruct (IH _ _ _ Hrest) as (Hvideo & Hclosed & ->).
    rewrite react_cases in Hreact. rewrite filter_cons.
    destruct (ends_interaction i) eqn:Hends.
    + injection Hreact as <- <-. rewrite decide_True by done. done.
    + rewrite decide_False by done. destruct i as [url|]; injection Hreact as <- <-.
      * split_and!; [| |done].
        -- intros _. apply Hvideo. unfold render. simpl.
           simpl in Hends. by rewrite Hends.
        -- intros Hs. apply Hclosed. exact Hs.
      * split_and!; [| |done].
        -- intros Hs. apply Hvideo. unfold render in *. simpl.
           by destruct (truthy (viewingAreaVideoURL s)).
        -- intros _. by apply Hclosed.
Qed.

Lemma viewing_area_keeps_video_witness :
  (render (mkState true None) = ViewingAreaVideo →
   render (mkState false (Some "v1")) = ViewingAreaVideo) ∧
  (selectIsOpen (mkState true None) = false →
   selectIsOpen (mkState false (Some "v1")) = false) ∧
  [endIteraction; endIteraction; endIteraction] =
    replicate
      (length (filter (λ i, ends_interaction i = true)
                 [VideoChange None; Close; VideoChange (Some "v1");
                  VideoChange (Some ""); VideoChange None]))
      endIteraction.
Proof.
  apply (viewing_area_keeps_video
           [VideoChange None; Close; VideoChange (Some "v1");
            VideoChange (Some ""); VideoChange None]
           (mkState true None) (mkState false (Some "v1"))
           [endIteraction; endIteraction; endIteraction]).
  by vm_compute.
Defined.

End Component.
